(** * Onset rule engine: [engine/word.py]

    A shallow embedding of the [Word] class of the Onset sound-change
    engine, together with the properties of rule matching
    ([index_applicable], [applicable]) and rule application ([apply_rule]).

    Python values are embedded as follows.
    - An [int] is a [Z]; [len] of a list is a [Z]; subscripting a list
      follows Python: index [i] with [-len <= i < 0] counts from the end,
      anything outside [-len <= i < len] raises [IndexError].
    - Exceptions are explicit: a computation either raises an [exn] or
      yields a value.  Every subscript applied to [self.segments] is also
      recorded, in order, so that statements about the accesses the code
      performs can be made.
    - A rule is a dictionary with optional keys; a key that is absent is
      [None], and [rule['k']] on an absent key raises [KeyError].
    - The [Segment] class lives in [segment.py]; [Word] only uses its
      interface, which is a type class here. *)

From stdpp Require Import base list strings gmap.
From Stdlib Require Import ZArith Lia.

Local Open Scope Z_scope.

(** ** Computations that may raise and that record list accesses *)

Inductive exn : Type :=
  | KeyError (key : string)
  | IndexError.

Global Instance exn_eq_dec : EqDecision exn := ltac:(solve_decision).

(** [Run A]: the subscripts applied to [self.segments] so far, and either
    the exception raised or the value produced. *)
Definition Run (A : Type) : Type := (list Z * (exn + A))%type.

Definition accesses {A} (m : Run A) : list Z := fst m.
Definition outcome {A} (m : Run A) : exn + A := snd m.

Definition ret {A} (x : A) : Run A := ([], inr x).
Definition raise {A} (e : exn) : Run A := ([], inl e).

Definition bind {A B} (m : Run A) (f : A → Run B) : Run B :=
  match outcome m with
  | inl e => (accesses m, inl e)
  | inr a => (accesses m ++ accesses (f a), outcome (f a))
  end.

Notation "'do' x <- m ; k" := (bind m (λ x, k))
  (at level 10, x name, m at level 100, k at level 200,
   format "'[v' 'do'  x  <-  m ; '/' k ']'").

(** [m] returns the value [v]. *)
Definition returns {A} (m : Run A) (v : A) : Prop := outcome m = inr v.
(** [m] raises the exception [e]. *)
Definition raises {A} (m : Run A) (e : exn) : Prop := outcome m = inl e.

Global Instance returns_dec {A} `{EqDecision A} (m : Run A) (v : A) :
  Decision (returns m v) := decide (outcome m = inr v).

(** Python's [range(n)]. *)
Definition range (n : Z) : list Z := Z.of_nat <$> seq 0 (Z.to_nat n).

(** Python's [len(l)]. *)
Definition len {A} (l : list A) : Z := Z.of_nat (length l).

(** Python's [l[i]] on a list, for the list [self.segments]: the subscript
    is recorded. *)
Definition getitem {A} (l : list A) (i : Z) : Run A :=
  let j := if i <? 0 then i + len l else i in
  ([i],
   if (0 <=? j) && (j <? len l)
   then match l !! Z.to_nat j with
        | Some x => inr x
        | None => inl IndexError
        end
   else inl IndexError).

(** [d[k]] on a dictionary whose key [k] may be absent. *)
Definition subscript {A} (k : string) (entry : option A) : Run A :=
  match entry with
  | Some v => ret v
  | None => raise (KeyError k)
  end.

(** [d.get(k, [])] on a dictionary of feature lists. *)
Definition get (d : gmap string (list string)) (k : string) : list string :=
  default [] (d !! k).

(** [k in l] on a list of labels. *)
Definition contains (l : list string) (k : string) : bool := bool_decide (k ∈ l).

(** Python's [any] over a generator: stops at the first true element,
    and an exception raised by an element propagates. *)
Fixpoint any {A} (f : A → Run bool) (l : list A) : Run bool :=
  match l with
  | [] => ret false
  | x :: l' => do b <- f x; if b then ret true else any f l'
  end.

(** A [for] loop over [l] threading the loop state [acc]. *)
Fixpoint for_each {A S} (l : list A) (body : S → A → Run S) (acc : S) : Run S :=
  match l with
  | [] => ret acc
  | x :: l' => do acc' <- body acc x; for_each l' body acc'
  end.

(** ** The interface of [Segment] used by [Word] *)

(** [Word] builds a segment from three feature lists, asks a segment
    whether it meets a condition set, adds two segments, and reads the
    three feature collections of a segment (as frozensets, for the key).
    The condition sets are passed through untouched, so their type is a
    parameter.  The operations are total: a call returns and does not
    raise. *)
Class SegmentOps (Segment Conditions : Type) : Type := {
  Segment_init : list string → list string → list string → Segment;
  positive : Segment → gset string;
  negative : Segment → gset string;
  zero : Segment → gset string;
  meets_conditions : Segment → Conditions → bool;
  Segment_add : Segment → Segment → Segment;
}.

(** ** Rules *)

(** The rule dictionary, with the six keys that [Word] consults.  Each
    field is the value stored under the key of the same name, [None] when
    the key is absent.  The values stored under [first] and [last] are
    never read, only their presence is; [applies] is itself a dictionary
    from "positive", "negative" and "zero" to feature lists. *)
Record Rule (Conditions : Type) : Type := {
  conditions : option Conditions;
  first : option bool;
  last : option bool;
  before : option Conditions;
  after : option Conditions;
  applies : option (gmap string (list string));
}.
Arguments conditions {_} _.
Arguments first {_} _.
Arguments last {_} _.
Arguments before {_} _.
Arguments after {_} _.
Arguments applies {_} _.

(** [k in rule] for an optional key. *)
Definition has_key {A} (entry : option A) : bool :=
  match entry with Some _ => true | None => false end.

(** ** Words *)

Record Word (Segment : Type) : Type := { segments : list Segment }.
Arguments segments {_} _.
Arguments Build_Word {_} _.

Section word.
Context {Segment Conditions : Type} `{!SegmentOps Segment Conditions}.

Implicit Types (self : Word Segment) (rule : Rule Conditions) (index : Z).

(** [Word.__key] *)
Definition Word_key self : list (gset string * gset string * gset string) :=
  (λ segment, (positive segment, negative segment, zero segment)) <$> segments self.

(** [Word.__eq__] *)
Definition Word_eq self (other : Word Segment) : bool :=
  bool_decide (Word_key self = Word_key other).

(** [Word.index_applicable] *)
Definition index_applicable self index rule : Run bool :=
  do segment <- getitem (segments self) index;
  do conds <- subscript "conditions" (conditions rule);
  if negb (meets_conditions segment conds) then ret false else
  if has_key (first rule) && negb (index =? 0) then ret false else
  if has_key (last rule) && negb (index =? len (segments self) - 1) then ret false else
  do before_ok <-
    match before rule with
    | Some before_conds =>
        if index =? 0 then ret false else
        do before_segment <- getitem (segments self) (index - 1);
        ret (meets_conditions before_segment before_conds)
    | None => ret true
    end;
  if negb before_ok then ret false else
  match after rule with
  | Some after_conds =>
      if index =? len (segments self) - 1 then ret false else
      do after_segment <- getitem (segments self) (index + 1);
      if negb (meets_conditions after_segment after_conds) then ret false
      else ret true
  | None => ret true
  end.

(** [Word.applicable] *)
Definition applicable self rule : Run bool :=
  any (λ i, index_applicable self i rule) (range (len (segments self))).

(** The body of the [for] loop of [Word.apply_rule]: the new value of
    [new_segments] after the iteration at index [i]. *)
Definition apply_rule_body self rule (rule_applies : gmap string (list string))
    (rule_segment : Segment) (new_segments : list Segment) (i : Z)
    : Run (list Segment) :=
  do matched <- index_applicable self i rule;
  if matched then
    if negb (contains (get rule_applies "positive") "deletion") then
      do segment <- getitem (segments self) i;
      ret (new_segments ++ [Segment_add segment rule_segment])
    else ret new_segments
  else
    do segment <- getitem (segments self) i;
    ret (new_segments ++ [segment]).

(** [Word.apply_rule] *)
Definition apply_rule self rule : Run (Word Segment) :=
  do rule_applies <- subscript "applies" (applies rule);
  let rule_segment :=
    Segment_init (get rule_applies "positive")
                 (get rule_applies "negative")
                 (get rule_applies "zero") in
  do new_segments <-
    for_each (range (len (segments self)))
             (apply_rule_body self rule rule_applies rule_segment) [];
  ret (Build_Word new_segments).

End word.

(** ** Notions used to state the properties *)

(** A computation of a boolean returned [True]. *)
Definition holds (m : Run bool) : bool :=
  match outcome m with inr b => b | inl _ => false end.

Section notions.
Context {Segment Conditions : Type} `{!SegmentOps Segment Conditions}.

Implicit Types (self : Word Segment) (rule : Rule Conditions).
Implicit Types (i : Z) (c : Conditions) (a : gmap string (list string)).

(** The segment at the in-range index [i] of a word. *)
Definition segment_at self i : option Segment :=
  if decide (0 ≤ i < len (segments self)) then segments self !! Z.to_nat i
  else None.

(** The segment at index [i] exists and meets the condition set [c]. *)
Definition meets_at self i c : Prop :=
  ∃ s, segment_at self i = Some s ∧ meets_conditions s c = true.

(** Every subscript is within [0, len). *)
Definition in_bounds self (trace : list Z) : Prop :=
  Forall (λ j, 0 ≤ j < len (segments self)) trace.

(** The transformation segment of a rule: the positive, negative and
    zero lists of [rule['applies']], a missing list being empty. *)
Definition transformation_segment a : Segment :=
  Segment_init (get a "positive") (get a "negative") (get a "zero").

(** What the walk puts in the output sequence at index [i]: nothing at
    a matching index of a deletion rule, the combined segment at a
    matching index of any other rule, the segment itself at an index
    that does not match. *)
Definition rewrite_at self rule a i : list Segment :=
  match segment_at self i with
  | Some segment =>
      if holds (index_applicable self i rule) then
        if contains (get a "positive") "deletion" then []
        else [Segment_add segment (transformation_segment a)]
      else [segment]
  | None => []
  end.

(** The word obtained by walking the indices [0 .. len - 1] in order. *)
Definition rewritten self rule a : Word Segment :=
  Build_Word (concat (rewrite_at self rule a <$> range (len (segments self)))).

(** The same rule with another [applies] entry. *)
Definition with_applies rule a : Rule Conditions :=
  {| conditions := conditions rule; first := first rule; last := last rule;
     before := before rule; after := after rule; applies := Some a |}.

(** The segment an index keeps when matching segments are removed. *)
Definition kept_at self rule i : option Segment :=
  if holds (index_applicable self i rule) then None else segment_at self i.

(** The segments at the indices that do not match, in order. *)
Definition unmatched self rule : list Segment :=
  omap (kept_at self rule) (range (len (segments self))).

(** The segment an index contributes when matching segments are
    combined with the transformation segment. *)
Definition merged_at self rule a i : option Segment :=
  (λ segment,
     if holds (index_applicable self i rule)
     then Segment_add segment (transformation_segment a)
     else segment) <$> segment_at self i.

(** The indices of a word at which a rule matches. *)
Definition matching_indices self rule : list Z :=
  filter (λ i, returns (index_applicable self i rule) true)
         (range (len (segments self))).

End notions.

(** ** A model of [Segment] *)

Module SpecSegment.

(** Modelled from the spec: the class [Segment] of [segment.py] is not
    among the sources.  A segment is three sets of feature labels, built
    from three label collections. *)
Record Segment : Type := {
  seg_positive : gset string;
  seg_negative : gset string;
  seg_zero : gset string;
}.

(** Modelled from the spec: the constructor of [Segment], which takes
    three feature-label collections and deduplicates them into sets. *)
Definition init (positive negative zero : list string) : Segment :=
  {| seg_positive := list_to_set positive;
     seg_negative := list_to_set negative;
     seg_zero := list_to_set zero |}.

(** Modelled from the spec: [Segment.meets_conditions].  Every label the
    condition set asserts positive is in the positive set, every label
    asserted negative is in the negative set, every label asserted zero
    is in the zero set; labels that are not mentioned are free. *)
Definition meets (s : Segment) (conds : gmap string (list string)) : bool :=
  forallb (λ f, bool_decide (f ∈ seg_positive s)) (get conds "positive")
  && forallb (λ f, bool_decide (f ∈ seg_negative s)) (get conds "negative")
  && forallb (λ f, bool_decide (f ∈ seg_zero s)) (get conds "zero").

(** Modelled from the spec: [Segment.__add__] (combine).  A label
    mentioned by [other] takes the classification [other] gives it and
    leaves whichever set held it; the other labels stay where they are. *)
Definition add (s other : Segment) : Segment :=
  let mentioned := seg_positive other ∪ seg_negative other ∪ seg_zero other in
  {| seg_positive := (seg_positive s ∖ mentioned) ∪ seg_positive other;
     seg_negative := (seg_negative s ∖ mentioned) ∪ seg_negative other;
     seg_zero := (seg_zero s ∖ mentioned) ∪ seg_zero other |}.

Global Instance ops : SegmentOps Segment (gmap string (list string)) := {|
  Segment_init := init;
  positive := seg_positive;
  negative := seg_negative;
  zero := seg_zero;
  meets_conditions := meets;
  Segment_add := add;
|}.

(** The words and rules of the concrete scenarios. *)
Definition voiced : Segment := init ["voiced"] [] [].
Definition voiceless : Segment := init [] ["voiced"] [].
Definition two_segments : Word Segment := {| segments := [voiced; voiceless] |}.

Definition mk_rule conds fst lst bef aft app : Rule (gmap string (list string)) :=
  {| conditions := conds; first := fst; last := lst;
     before := bef; after := aft; applies := app |}.

Definition is_voiced : gmap string (list string) := {[ "positive" := ["voiced"] ]}.
Definition is_voiceless : gmap string (list string) := {[ "negative" := ["voiced"] ]}.

Definition devoice : gmap string (list string) := {[ "negative" := ["voiced"] ]}.
Definition delete : gmap string (list string) := {[ "positive" := ["deletion"] ]}.
Definition delete_and_more : gmap string (list string) :=
  {[ "positive" := ["nasal"; "deletion"]; "zero" := ["voiced"] ]}.

Definition devoicing := mk_rule (Some is_voiced) None None None None (Some devoice).
Definition delete_voiceless :=
  mk_rule (Some is_voiceless) None None None None (Some delete).
Definition voiced_last :=
  mk_rule (Some is_voiced) None (Some true) None None (Some devoice).
Definition voiceless_first :=
  mk_rule (Some is_voiceless) (Some true) None None None (Some devoice).
Definition voiced_after_voiced :=
  mk_rule (Some is_voiced) None None (Some is_voiced) None (Some devoice).
Definition voiceless_before_voiceless :=
  mk_rule (Some is_voiceless) None None None (Some is_voiceless) (Some devoice).
Definition no_conditions := mk_rule None None None None None (Some devoice).
Definition no_applies := mk_rule (Some is_voiced) None None None None None.

End SpecSegment.

(** ** Further notions: context-free rules, equality of words *)

Section more_notions.
Context {Segment Conditions : Type} `{!SegmentOps Segment Conditions}.

Implicit Types (rule : Rule Conditions) (c : Conditions).
Implicit Types (a : gmap string (list string)).

(** A rule with none of the keys [first], [last], [before], [after]. *)
Definition context_free rule : Prop :=
  first rule = None ∧ last rule = None ∧ before rule = None ∧ after rule = None.

(** What a rule without positional or contextual keys makes of one
    segment: nothing or the combined segment if the segment meets the
    conditions, the segment itself otherwise. *)
Definition rewrite_segment c a (s : Segment) : list Segment :=
  if meets_conditions s c then
    if contains (get a "positive") "deletion" then []
    else [Segment_add s (transformation_segment a)]
  else [s].

(** Two segments have the same positive, negative and zero sets. *)
Definition same_features (s1 s2 : Segment) : Prop :=
  positive s1 = positive s2 ∧ negative s1 = negative s2 ∧ zero s1 = zero s2.

End more_notions.

Module MoreScenarios.
Import SpecSegment.

Definition is_nasal : gmap string (list string) := {[ "positive" := ["nasal"] ]}.

Definition voiceless_before_voiced :=
  mk_rule (Some is_voiceless) None None None (Some is_voiced) (Some devoice).
Definition first_and_before :=
  mk_rule (Some is_voiced) (Some true) None (Some is_voiced) None (Some devoice).
Definition last_and_after :=
  mk_rule (Some is_voiceless) None (Some true) None (Some is_voiceless) (Some devoice).
Definition first_and_last :=
  mk_rule (Some is_voiced) (Some true) (Some true) None None (Some devoice).
Definition one_segment : Word Segment := {| segments := [voiced] |}.
Definition empty_word : Word Segment := {| segments := [] |}.

End MoreScenarios.

(** ** Facts about computations *)

Section run.
Context {A B : Type}.
Implicit Types (m : Run A) (f : A → Run B).

Lemma outcome_bind m f :
  outcome (bind m f) =
  match outcome m with inl e => inl e | inr a => outcome (f a) end.
Proof. unfold bind. by destruct (outcome m). Qed.

Lemma accesses_bind m f :
  accesses (bind m f) =
  accesses m ++ match outcome m with inl _ => [] | inr a => accesses (f a) end.
Proof. unfold bind. destruct (outcome m); simpl; by rewrite ?app_nil_r. Qed.

Lemma returns_bind m f a b :
  returns m a → returns (f a) b → returns (bind m f) b.
Proof. unfold returns. intros Hm Hf. by rewrite outcome_bind, Hm. Qed.

Lemma raises_bind_l m f e : raises m e → raises (bind m f) e.
Proof. unfold raises. intros Hm. by rewrite outcome_bind, Hm. Qed.

Lemma returns_not_raises m a e : returns m a → ¬ raises m e.
Proof. unfold returns, raises. congruence. Qed.

Lemma returns_inj m a a' : returns m a → returns m a' → a = a'.
Proof. unfold returns. congruence. Qed.
End run.

Lemma any_spec {A} (f : A → Run bool) (l : list A) :
  (∀ x, x ∈ l → ∃ b, returns (f x) b) →
  ∃ b, returns (any f l) b ∧ (b = true ↔ ∃ x, x ∈ l ∧ returns (f x) true).
Proof.
  induction l as [|x l IH]; intros Hl; simpl.
  - exists false. split; [done|]. split; [done|].
    intros (x & Hx & _). by apply elem_of_nil in Hx.
  - destruct (Hl x) as [b Hb]; [left|].
    destruct IH as (b' & Hb' & IH); [intros y Hy; apply Hl; by right|].
    destruct b.
    + exists true. split; [by eapply returns_bind|].
      split; [|done]. intros _. exists x. split; [left|done].
    + exists b'. split; [by eapply returns_bind|].
      rewrite IH. split.
      * intros (y & Hy & Hfy). exists y. split; [by right|done].
      * intros (y & Hy & Hfy). apply elem_of_cons in Hy as [->|Hy].
        -- by pose proof (returns_inj _ _ _ Hb Hfy).
        -- eauto.
Qed.

Lemma any_accesses {A} (P : Z → Prop) (f : A → Run bool) (l : list A) :
  (∀ x, x ∈ l → Forall P (accesses (f x))) → Forall P (accesses (any f l)).
Proof.
  induction l as [|x l IH]; intros Hl; simpl; [done|].
  rewrite accesses_bind. apply Forall_app. split; [apply Hl; left|].
  destruct (outcome (f x)) as [|[]]; [done..|].
  apply IH. intros y Hy. apply Hl. by right.
Qed.

Lemma for_each_accesses {A S} (P : Z → Prop) (l : list A)
    (body : S → A → Run S) (acc : S) :
  (∀ acc' x, x ∈ l → Forall P (accesses (body acc' x))) →
  Forall P (accesses (for_each l body acc)).
Proof.
  revert acc. induction l as [|x l IH]; intros acc Hl; simpl; [done|].
  rewrite accesses_bind. apply Forall_app. split; [apply Hl; left|].
  destruct (outcome (body acc x)); [done|].
  apply IH. intros acc' y Hy. apply Hl. by right.
Qed.

Lemma elem_of_range n i : i ∈ range n ↔ 0 ≤ i < n.
Proof.
  unfold range. rewrite list_elem_of_fmap. split.
  - intros (k & -> & Hk). apply elem_of_seq in Hk. lia.
  - intros Hi. exists (Z.to_nat i). split; [lia|]. apply elem_of_seq. lia.
Qed.

Lemma length_range n : length (range n) = Z.to_nat n.
Proof. unfold range. by rewrite length_fmap, length_seq. Qed.

Lemma getitem_in_range {A} (l : list A) i :
  0 ≤ i < len l → ∃ x, l !! Z.to_nat i = Some x ∧ getitem l i = ([i], inr x).
Proof.
  intros Hi. destruct (lookup_lt_is_Some_2 l (Z.to_nat i)) as [x Hx].
  { unfold len in Hi. lia. }
  exists x. split; [done|]. unfold getitem.
  destruct (Z.ltb_spec i 0); [lia|].
  destruct (Z.leb_spec 0 i); [|lia].
  destruct (Z.ltb_spec i (len l)); [|lia].
  simpl. by rewrite Hx.
Qed.

Lemma accesses_getitem {A} (l : list A) i : accesses (getitem l i) = [i].
Proof. done. Qed.

(** Every subscript Python accepts, also a negative one, yields an element. *)
Lemma getitem_valid {A} (l : list A) i :
  - len l ≤ i < len l → ∃ x, returns (getitem l i) x.
Proof.
  intros Hi. destruct (Z.ltb_spec i 0) as [Hneg|Hpos].
  - unfold returns, getitem, outcome. simpl.
    destruct (Z.ltb_spec i 0); [|lia].
    destruct (Z.leb_spec 0 (i + len l)); [|lia].
    destruct (Z.ltb_spec (i + len l) (len l)); [|lia]. simpl.
    destruct (lookup_lt_is_Some_2 l (Z.to_nat (i + len l))) as [x ->]; [|eauto].
    unfold len in *. lia.
  - destruct (getitem_in_range l i) as (x & _ & Hx); [lia|].
    exists x. unfold returns. by rewrite Hx.
Qed.

(** Every subscript of the empty list raises. *)
Lemma getitem_empty {A} i : raises (getitem (@nil A) i) IndexError.
Proof.
  unfold raises, getitem, outcome. simpl. by destruct (_ && _).
Qed.

(** ** Rule matching *)

Section matching.
Context {Segment Conditions : Type} `{!SegmentOps Segment Conditions}.

Implicit Types (self : Word Segment) (rule : Rule Conditions).
Implicit Types (i : Z) (c : Conditions).

Lemma segment_at_in_range self i :
  0 ≤ i < len (segments self) →
  ∃ s, segment_at self i = Some s ∧ getitem (segments self) i = ([i], inr s).
Proof.
  intros Hi. destruct (getitem_in_range (segments self) i Hi) as (s & Hs & Hg).
  exists s. split; [|done]. unfold segment_at. by rewrite decide_True.
Qed.

Lemma meets_at_Some self i c s :
  segment_at self i = Some s → meets_at self i c ↔ meets_conditions s c = true.
Proof.
  intros Hs. unfold meets_at. split.
  - intros (s' & Hs' & Hm). congruence.
  - intros Hm. eauto.
Qed.

Lemma index_applicable_spec self rule c i :
  conditions rule = Some c → 0 ≤ i < len (segments self) →
  ∃ b, returns (index_applicable self i rule) b ∧
    (b = true ↔
      meets_at self i c ∧
      (is_Some (first rule) → i = 0) ∧
      (is_Some (last rule) → i = len (segments self) - 1) ∧
      (∀ bc, before rule = Some bc → 0 < i ∧ meets_at self (i - 1) bc) ∧
      (∀ ac, after rule = Some ac →
             i < len (segments self) - 1 ∧ meets_at self (i + 1) ac)).
Proof.
  intros Hc Hi. unfold index_applicable, returns.
  destruct (segment_at_in_range self i Hi) as (s & Hs & ->).
  rewrite Hc, !outcome_bind. simpl.
  destruct (meets_conditions s c) eqn:Hm; simpl.
  2: { eexists; split; [done|]. split; [done|].
       intros [(s' & Hs' & Hm') _]. congruence. }
  destruct (first rule) as [?|], (Z.eqb_spec i 0) as [Hi0|Hi0]; simpl.
  all: destruct (last rule) as [?|],
         (Z.eqb_spec i (len (segments self) - 1)) as [Hil|Hil]; simpl.
  all: rewrite ?outcome_bind.
  all: destruct (before rule) as [bc|]; simpl.
  all: try (destruct (segment_at_in_range self (i - 1)) as (p & Hp & ->); [lia|];
            rewrite ?outcome_bind; simpl;
            destruct (meets_conditions p bc) eqn:Hmp; simpl).
  all: destruct (after rule) as [ac|]; simpl.
  all: try (destruct (segment_at_in_range self (i + 1)) as (n & Hn & ->); [lia|];
            rewrite ?outcome_bind; simpl;
            destruct (meets_conditions n ac) eqn:Hmn; simpl).
  all: eexists; (split; [done|]); unfold meets_at.
  all: split; [intros Hb; try done|try done].
  all: try (intros (_ & Hfirst & Hlast & Hbefore & Hafter); exfalso;
            first [ specialize (Hfirst ltac:(by eexists)); lia
                  | specialize (Hlast ltac:(by eexists)); lia
                  | destruct (Hbefore _ eq_refl) as [? (? & ? & ?)];
                    first [lia | congruence]
                  | destruct (Hafter _ eq_refl) as [? (? & ? & ?)];
                    first [lia | congruence] ]).
  all: repeat split; try (by intros [? ?]); try done; try lia; eauto.
  all: simplify_eq; eauto.
Qed.
(** Case analysis along the control flow of a computation. *)
Ltac run_cases :=
  repeat (rewrite ?outcome_bind, ?accesses_bind; simpl;
          match goal with
          | |- context [match ?x with _ => _ end] => destruct x eqn:?
          end);
  rewrite ?outcome_bind, ?accesses_bind; simpl.

Lemma index_applicable_first_only self rule i :
  is_Some (first rule) → i ≠ 0 → ¬ returns (index_applicable self i rule) true.
Proof.
  intros [v Hv] Hi. unfold returns, index_applicable. rewrite Hv.
  destruct (Z.eqb_spec i 0) as [?|_]; [done|].
  run_cases; discriminate.
Qed.

Lemma index_applicable_last_only self rule i :
  is_Some (last rule) → i ≠ len (segments self) - 1 →
  ¬ returns (index_applicable self i rule) true.
Proof.
  intros [v Hv] Hi. unfold returns, index_applicable. rewrite Hv.
  destruct (Z.eqb_spec i (len (segments self) - 1)) as [?|_]; [done|].
  run_cases; discriminate.
Qed.

Lemma index_applicable_before_not_first self rule :
  is_Some (before rule) → ¬ returns (index_applicable self 0 rule) true.
Proof.
  intros [v Hv]. unfold returns, index_applicable. rewrite Hv.
  run_cases; discriminate.
Qed.

Lemma index_applicable_after_not_last self rule :
  is_Some (after rule) →
  ¬ returns (index_applicable self (len (segments self) - 1) rule) true.
Proof.
  intros [v Hv]. unfold returns, index_applicable. rewrite Hv.
  rewrite Z.eqb_refl.
  run_cases; discriminate.
Qed.

Lemma index_applicable_in_bounds self rule i :
  0 ≤ i < len (segments self) →
  in_bounds self (accesses (index_applicable self i rule)).
Proof.
  intros Hi. unfold in_bounds, index_applicable.
  destruct (conditions rule); simpl.
  all: destruct (Z.eqb_spec i 0), (Z.eqb_spec i (len (segments self) - 1)).
  all: run_cases.
  all: rewrite ?Forall_app, ?Forall_cons, ?Forall_nil.
  all: repeat split; try done; lia.
Qed.

Lemma index_applicable_total self rule i :
  is_Some (conditions rule) → 0 ≤ i < len (segments self) →
  ∃ b, returns (index_applicable self i rule) b.
Proof.
  intros [c Hc] Hi.
  destruct (index_applicable_spec self rule c i Hc Hi) as (b & Hb & _). eauto.
Qed.

Lemma index_applicable_false self rule i :
  is_Some (conditions rule) → 0 ≤ i < len (segments self) →
  ¬ returns (index_applicable self i rule) true →
  returns (index_applicable self i rule) false.
Proof.
  intros Hc Hi Hnot.
  by destruct (index_applicable_total self rule i Hc Hi) as [[] Hb].
Qed.

Lemma index_applicable_no_conditions self rule i :
  conditions rule = None → - len (segments self) ≤ i < len (segments self) →
  raises (index_applicable self i rule) (KeyError "conditions").
Proof.
  intros Hc Hi. unfold raises, index_applicable.
  destruct (getitem_valid (segments self) i Hi) as [s Hs].
  by rewrite outcome_bind, Hs, Hc.
Qed.

(** On the empty word no subscript is valid, and [index_applicable]
    raises for every index and every rule. *)
Remark index_applicable_empty_word self rule i :
  segments self = [] → raises (index_applicable self i rule) IndexError.
Proof.
  intros Hnil. unfold index_applicable. rewrite Hnil.
  apply raises_bind_l, getitem_empty.
Qed.

Lemma index_applicable_no_IndexError self rule i :
  0 ≤ i < len (segments self) → ¬ raises (index_applicable self i rule) IndexError.
Proof.
  intros Hi. destruct (conditions rule) as [c|] eqn:Hc.
  - destruct (index_applicable_total self rule i) as [b Hb]; [by eexists|done|].
    by eapply returns_not_raises.
  - pose proof (index_applicable_no_conditions self rule i Hc) as Hr.
    unfold raises in *. rewrite Hr; [congruence|lia].
Qed.

Lemma applicable_in_bounds self rule :
  in_bounds self (accesses (applicable self rule)).
Proof.
  apply any_accesses. intros i Hi%elem_of_range.
  by apply index_applicable_in_bounds.
Qed.

Lemma apply_rule_body_in_bounds self rule a t acc i :
  0 ≤ i < len (segments self) →
  in_bounds self (accesses (apply_rule_body self rule a t acc i)).
Proof.
  intros Hi. unfold in_bounds, apply_rule_body. rewrite accesses_bind.
  apply Forall_app. split; [by apply index_applicable_in_bounds|].
  destruct (outcome (index_applicable self i rule)) as [|[]]; [done|..].
  - destruct (negb _); [|done].
    rewrite accesses_bind, accesses_getitem. apply Forall_app. split.
    + by apply Forall_singleton.
    + by destruct (outcome _).
  - rewrite accesses_bind, accesses_getitem. apply Forall_app. split.
    + by apply Forall_singleton.
    + by destruct (outcome _).
Qed.

Lemma apply_rule_in_bounds self rule :
  in_bounds self (accesses (apply_rule self rule)).
Proof.
  unfold in_bounds, apply_rule. destruct (applies rule) as [a|]; [|done].
  rewrite accesses_bind. simpl. rewrite accesses_bind.
  apply Forall_app. split.
  - apply for_each_accesses. intros acc i Hi%elem_of_range.
    by apply apply_rule_body_in_bounds.
  - by destruct (outcome _).
Qed.

End matching.

(** ** Rule application *)

Lemma holds_true m : holds m = true ↔ returns m true.
Proof. unfold holds, returns. destruct (outcome m) as [|[]]; naive_solver. Qed.

Lemma holds_returns m b : returns m b → holds m = b.
Proof. unfold holds, returns. by intros ->. Qed.

Section rewriting.
Context {Segment Conditions : Type} `{!SegmentOps Segment Conditions}.

Implicit Types (self : Word Segment) (rule : Rule Conditions).
Implicit Types (i : Z) (a : gmap string (list string)).

Lemma apply_rule_body_spec self rule a i acc b :
  0 ≤ i < len (segments self) →
  returns (index_applicable self i rule) b →
  returns (apply_rule_body self rule a (transformation_segment a) acc i)
          (acc ++ rewrite_at self rule a i).
Proof.
  intros Hi Hb. unfold apply_rule_body, rewrite_at, returns in *.
  destruct (segment_at_in_range self i Hi) as (s & -> & ->).
  rewrite (holds_returns _ _ Hb), outcome_bind, Hb.
  destruct b, (contains (get a "positive") "deletion"); simpl;
    by rewrite ?outcome_bind, ?app_nil_r.
Qed.

Lemma apply_rule_loop self rule a l acc :
  (∀ i, i ∈ l → 0 ≤ i < len (segments self) ∧
                ∃ b, returns (index_applicable self i rule) b) →
  returns (for_each l (apply_rule_body self rule a (transformation_segment a)) acc)
          (acc ++ concat (rewrite_at self rule a <$> l)).
Proof.
  revert acc. induction l as [|i l IH]; intros acc Hl; simpl.
  - unfold returns. by rewrite app_nil_r.
  - destruct (Hl i) as (Hi & b & Hb); [left|].
    eapply returns_bind; [by eapply apply_rule_body_spec|].
    rewrite app_assoc. apply IH. intros j Hj. apply Hl. by right.
Qed.

Lemma apply_rule_rewritten self rule a :
  applies rule = Some a →
  (∀ i, 0 ≤ i < len (segments self) →
        ∃ b, returns (index_applicable self i rule) b) →
  returns (apply_rule self rule) (rewritten self rule a).
Proof.
  intros Ha Htotal. unfold apply_rule. rewrite Ha.
  eapply returns_bind; [done|].
  eapply returns_bind; [|done].
  apply (apply_rule_loop self rule a _ []).
  intros i Hi%elem_of_range. split; [done|]. by apply Htotal.
Qed.

Lemma contains_true (l : list string) k : contains l k = true ↔ k ∈ l.
Proof. unfold contains. apply bool_decide_eq_true. Qed.

Lemma contains_false (l : list string) k : contains l k = false ↔ k ∉ l.
Proof. unfold contains. apply bool_decide_eq_false. Qed.

Lemma concat_option_list {A B} (f : A → option B) (l : list A) :
  concat ((λ x, option_list (f x)) <$> l) = omap f l.
Proof.
  induction l as [|x l IH]; csimpl; [done|]. rewrite IH. by destruct (f x).
Qed.

Lemma rewrite_at_deletion self rule a i :
  "deletion" ∈ get a "positive" →
  rewrite_at self rule a i = option_list (kept_at self rule i).
Proof.
  intros Hd%contains_true. unfold rewrite_at, kept_at. rewrite Hd.
  by destruct (segment_at self i), (holds _).
Qed.

Lemma rewrite_at_no_match self rule a i :
  returns (index_applicable self i rule) false →
  rewrite_at self rule a i = option_list (segment_at self i).
Proof.
  intros Hi%holds_returns. unfold rewrite_at. rewrite Hi.
  by destruct (segment_at self i).
Qed.

Lemma segments_from_lookups {A} (pre l : list A) :
  omap (λ k, (pre ++ l) !! k) (seq (length pre) (length l)) = l.
Proof.
  revert pre. induction l as [|x l IH]; intros pre; simpl; [done|].
  rewrite list_lookup_middle by done. f_equal.
  specialize (IH (pre ++ [x])).
  by rewrite <-app_assoc, length_app, Nat.add_1_r in IH.
Qed.

Lemma omap_segment_at self :
  omap (segment_at self) (range (len (segments self))) = segments self.
Proof.
  transitivity (omap (λ k, ([] ++ segments self) !! k)
                     (seq 0 (length (segments self))));
    [|apply (segments_from_lookups [])].
  unfold range, len at 1. rewrite Nat2Z.id. simpl.
  assert (∀ k, k ∈ seq 0 (length (segments self)) →
               (k < length (segments self))%nat) as Hl.
  { intros k Hk%elem_of_seq. lia. }
  revert Hl. generalize (seq 0 (length (segments self))). intros l Hl.
  induction l as [|k l IH]; csimpl; [done|].
  rewrite IH by (intros j Hj; apply Hl; by right).
  unfold segment_at at 1. rewrite Nat2Z.id.
  rewrite decide_True; [done|].
  pose proof (Hl k ltac:(left)). unfold len. lia.
Qed.

Lemma length_rewrite_at_deletion self rule a l :
  "deletion" ∈ get a "positive" →
  (∀ i, i ∈ l → 0 ≤ i < len (segments self)) →
  (length (concat (rewrite_at self rule a <$> l))
   + length (filter (λ i, returns (index_applicable self i rule) true) l)
   = length l)%nat.
Proof.
  intros Hd. induction l as [|i l IH]; intros Hl; csimpl; [done|].
  rewrite length_app, filter_cons, rewrite_at_deletion by done.
  specialize (IH (λ j Hj, Hl j (list_elem_of_further _ _ _ Hj))).
  destruct (segment_at_in_range self i) as (s & Hs & _); [apply Hl; left|].
  unfold kept_at. rewrite Hs.
  destruct (decide (returns (index_applicable self i rule) true)) as [Hm|Hm].
  - apply holds_true in Hm as ->. simpl. lia.
  - rewrite <-holds_true in Hm. apply not_true_is_false in Hm as ->.
    simpl. lia.
Qed.

Lemma rewrite_at_all_deleted self rule a l :
  "deletion" ∈ get a "positive" →
  (∀ i, i ∈ l → returns (index_applicable self i rule) true) →
  concat (rewrite_at self rule a <$> l) = [].
Proof.
  intros Hd. induction l as [|i l IH]; intros Hl; csimpl; [done|].
  rewrite IH by (intros j Hj; apply Hl; by right).
  rewrite rewrite_at_deletion by done. unfold kept_at.
  by rewrite (holds_returns _ true) by (apply Hl; left).
Qed.

Lemma apply_rule_no_conditions self rule a :
  conditions rule = None → applies rule = Some a → segments self ≠ [] →
  raises (apply_rule self rule) (KeyError "conditions").
Proof.
  intros Hc Ha Hne. unfold apply_rule, raises. rewrite Ha, outcome_bind. simpl.
  destruct (segments self) as [|s l] eqn:Hsegs; [done|].
  unfold range, len. rewrite Nat2Z.id, outcome_bind. simpl.
  unfold apply_rule_body at 1. rewrite !outcome_bind.
  rewrite (index_applicable_no_conditions self rule 0 Hc); [done|].
  rewrite Hsegs. unfold len. simpl. lia.
Qed.

(** Under deletion the outcome of [apply_rule] is determined by the word
    and by the entries of the rule that the matching reads. *)
Lemma apply_rule_deletion_outcome self rule a :
  applies rule = Some a →
  "deletion" ∈ get a "positive" →
  outcome (apply_rule self rule) =
  match conditions rule, segments self with
  | None, _ :: _ => inl (KeyError "conditions")
  | _, _ => inr (Build_Word (unmatched self rule))
  end.
Proof.
  intros Ha Hd.
  assert ((∀ i, 0 ≤ i < len (segments self) →
                ∃ b, returns (index_applicable self i rule) b) →
          outcome (apply_rule self rule) = inr (Build_Word (unmatched self rule)))
    as Htotal.
  { intros Hall. rewrite (apply_rule_rewritten self rule a Ha Hall).
    unfold rewritten, unmatched. do 2 f_equal.
    rewrite <-concat_option_list. f_equal. apply list_fmap_ext.
    intros k i _. by apply rewrite_at_deletion. }
  destruct (conditions rule) as [c|] eqn:Hc.
  - rewrite Htotal; [by destruct (segments self)|].
    intros i Hi. apply index_applicable_total; [by eexists|done].
  - destruct (segments self) as [|s l] eqn:Hsegs.
    + apply Htotal. intros i Hi. unfold len in Hi. simpl in Hi. lia.
    + apply (apply_rule_no_conditions self rule a); [done..|]. by rewrite Hsegs.
Qed.

Lemma rewrite_at_merge self rule a i :
  "deletion" ∉ get a "positive" →
  rewrite_at self rule a i = option_list (merged_at self rule a i).
Proof.
  intros Hd%contains_false. unfold rewrite_at, merged_at. rewrite Hd.
  by destruct (segment_at self i), (holds _).
Qed.

Lemma lookup_range n i : 0 ≤ i < n → range n !! Z.to_nat i = Some i.
Proof.
  intros Hi. unfold range. rewrite list_lookup_fmap, lookup_seq_lt by lia.
  simpl. f_equal. lia.
Qed.

Lemma lookup_omap_range {B} (f : Z → option B) n i :
  (∀ j, 0 ≤ j < n → is_Some (f j)) → 0 ≤ i < n →
  omap f (range n) !! Z.to_nat i = f i.
Proof.
  intros Hf Hi.
  assert (∀ l : list Z,
            (∀ j, j ∈ l → is_Some (f j)) → Some <$> omap f l = f <$> l)
    as Hsome.
  { induction l as [|j l IH]; intros Hl; csimpl; [done|].
    destruct (Hl j) as [y Hy]; [left|]. rewrite Hy. csimpl.
    rewrite IH; [done|]. intros j' Hj'. apply Hl. by right. }
  specialize (Hsome (range n) (λ j Hj, Hf j (proj1 (elem_of_range n j) Hj))).
  apply (f_equal (λ l, l !! Z.to_nat i)) in Hsome.
  rewrite !list_lookup_fmap, lookup_range in Hsome by done.
  destruct (omap f (range n) !! Z.to_nat i); simpl in Hsome; congruence.
Qed.

Lemma length_rewrite_at_merge self rule a l :
  "deletion" ∉ get a "positive" →
  (∀ i, i ∈ l → 0 ≤ i < len (segments self)) →
  length (concat (rewrite_at self rule a <$> l)) = length l.
Proof.
  intros Hd%contains_false. induction l as [|i l IH]; intros Hl; csimpl; [done|].
  rewrite length_app, IH by (intros j Hj; apply Hl; by right).
  destruct (segment_at_in_range self i) as (s & Hs & _); [apply Hl; left|].
  unfold rewrite_at. rewrite Hs, Hd. by destruct (holds _).
Qed.

End rewriting.

(** ** Properties of [Word] *)

Section properties.
Context {Segment Conditions : Type} `{!SegmentOps Segment Conditions}.

Implicit Types (self : Word Segment) (rule : Rule Conditions).
Implicit Types (i : Z) (c : Conditions) (a : gmap string (list string)).

(** C1: for a rule with a [conditions] key and an index [i] of the word,
    [index_applicable] returns a boolean, and it returns [True] exactly
    when the segment at [i] meets the conditions, [i] is 0 if [first] is
    present, [i] is the last index if [last] is present, [i > 0] and the
    segment at [i - 1] meets [before] if [before] is present, and
    [i < len - 1] and the segment at [i + 1] meets [after] if [after] is
    present. *)
Theorem index_applicable_iff self rule c i :
  conditions rule = Some c →
  0 ≤ i < len (segments self) →
  (∃ b, returns (index_applicable self i rule) b) ∧
  (returns (index_applicable self i rule) true ↔
     meets_at self i c ∧
     (is_Some (first rule) → i = 0) ∧
     (is_Some (last rule) → i = len (segments self) - 1) ∧
     (∀ bc, before rule = Some bc → 0 < i ∧ meets_at self (i - 1) bc) ∧
     (∀ ac, after rule = Some ac →
            i < len (segments self) - 1 ∧ meets_at self (i + 1) ac)).
Proof.
  intros Hc Hi.
  destruct (index_applicable_spec self rule c i Hc Hi) as (b & Hb & Hiff).
  split; [eauto|]. rewrite <-Hiff. split.
  - intros Ht. by eapply returns_inj.
  - by intros <-.
Qed.

(** C2: for a rule with [conditions] and [applies] keys, [apply_rule]
    returns the word obtained by building the transformation segment
    from the three lists of [applies] and walking the indices in order:
    a matching index contributes nothing under deletion and the combined
    segment otherwise, any other index contributes its segment. *)
Theorem apply_rule_walk self rule c a :
  conditions rule = Some c →
  applies rule = Some a →
  returns (apply_rule self rule) (rewritten self rule a).
Proof.
  intros Hc Ha. apply apply_rule_rewritten; [done|].
  intros i Hi. apply index_applicable_total; [by eexists|done].
Qed.

(** C3: when [applies.positive] contains "deletion", whatever
    [apply_rule] returns is exactly the segments at the indices that do
    not match (and it does return it when the rule has [conditions]), so
    no combined segment is produced; and the outcome is the same for every
    other content of [applies] that keeps "deletion" in its positive
    list. *)
Theorem deletion_discards_features self rule a :
  applies rule = Some a →
  "deletion" ∈ get a "positive" →
  (∀ result, returns (apply_rule self rule) result →
             result = Build_Word (unmatched self rule)) ∧
  (is_Some (conditions rule) →
   returns (apply_rule self rule) (Build_Word (unmatched self rule))) ∧
  (∀ a', "deletion" ∈ get a' "positive" →
         outcome (apply_rule self (with_applies rule a')) =
         outcome (apply_rule self rule)).
Proof.
  intros Ha Hd.
  pose proof (apply_rule_deletion_outcome self rule a Ha Hd) as Hout.
  split; [|split].
  - intros result Hr. unfold returns in Hr. rewrite Hout in Hr.
    destruct (conditions rule), (segments self); congruence.
  - intros [c Hc]. unfold returns. by rewrite Hout, Hc.
  - intros a' Hd'.
    by rewrite Hout, (apply_rule_deletion_outcome self (with_applies rule a') a').
Qed.

(** C4: for a rule with its [applies] entry, when [index_applicable]
    returns [False] at every index of the word, [apply_rule] returns a
    word with the same segments, which is equal to the original. *)
Theorem no_match_identity self rule a :
  applies rule = Some a →
  (∀ i, 0 ≤ i < len (segments self) →
        returns (index_applicable self i rule) false) →
  ∃ result, returns (apply_rule self rule) result ∧
            segments result = segments self ∧
            Word_eq result self = true.
Proof.
  intros Ha Hno. exists (rewritten self rule a).
  assert (segments (rewritten self rule a) = segments self) as Hsegs.
  { unfold rewritten. simpl. rewrite <-(omap_segment_at self) at 2.
    rewrite <-concat_option_list. f_equal. apply list_fmap_ext.
    intros k i Hk. apply rewrite_at_no_match, Hno.
    apply elem_of_range, list_elem_of_lookup. eauto. }
  split; [apply apply_rule_rewritten; eauto|].
  split; [done|]. unfold Word_eq, Word_key. rewrite Hsegs. by apply bool_decide_eq_true.
Qed.

(** C5: for a rule with [conditions], when [applies.positive] contains
    "deletion" and the rule matches exactly [k] of the indices of a word,
    [apply_rule] returns a word of length [len - k]; when it matches every
    index the result is the empty word. *)
Theorem deletion_shrinks self rule c a (k : nat) :
  conditions rule = Some c →
  applies rule = Some a →
  "deletion" ∈ get a "positive" →
  length (matching_indices self rule) = k →
  ∃ result, returns (apply_rule self rule) result ∧
            len (segments result) = len (segments self) - Z.of_nat k ∧
            ((∀ i, 0 ≤ i < len (segments self) →
                   returns (index_applicable self i rule) true) →
             segments result = []).
Proof.
  intros Hc Ha Hd Hk. exists (rewritten self rule a).
  split; [by eapply apply_rule_walk|].
  pose proof (length_rewrite_at_deletion self rule a
                (range (len (segments self))) Hd) as Hlen.
  rewrite length_range in Hlen. fold (matching_indices self rule) in Hlen.
  rewrite Hk in Hlen. specialize (Hlen (λ i Hi, proj1 (elem_of_range _ i) Hi)).
  split.
  - unfold rewritten, len in *. simpl. lia.
  - intros Hall. unfold rewritten. simpl.
    apply rewrite_at_all_deleted; [done|]. by intros i Hi%elem_of_range%Hall.
Qed.

(** C6: with [first] present, [index_applicable] never returns [True] at
    an index other than 0, and returns [False] at every such index of
    the word; with [last] present, the same holds for every index other
    than [len - 1]. *)
Theorem first_last_exclusive self rule i :
  (is_Some (first rule) → i ≠ 0 →
     ¬ returns (index_applicable self i rule) true ∧
     (is_Some (conditions rule) → 0 ≤ i < len (segments self) →
      returns (index_applicable self i rule) false)) ∧
  (is_Some (last rule) → i ≠ len (segments self) - 1 →
     ¬ returns (index_applicable self i rule) true ∧
     (is_Some (conditions rule) → 0 ≤ i < len (segments self) →
      returns (index_applicable self i rule) false)).
Proof.
  split.
  - intros Hf Hi.
    pose proof (index_applicable_first_only self rule i Hf Hi) as Hnot.
    split; [done|]. intros Hc Hr. by apply index_applicable_false.
  - intros Hl Hi.
    pose proof (index_applicable_last_only self rule i Hl Hi) as Hnot.
    split; [done|]. intros Hc Hr. by apply index_applicable_false.
Qed.

(** C7: with [before] present, [index_applicable] does not match index
    0, and with [after] present it does not match index [len - 1] (on a
    non-empty word and a rule with [conditions] it returns [False]);
    at an index of the word every subscript [index_applicable] applies
    to the segments is within bounds and no [IndexError] is raised, and
    the same holds for all subscripts of [applicable] and
    [apply_rule]. *)
Theorem context_boundary self rule :
  (is_Some (before rule) →
     ¬ returns (index_applicable self 0 rule) true ∧
     (is_Some (conditions rule) → segments self ≠ [] →
      returns (index_applicable self 0 rule) false)) ∧
  (is_Some (after rule) →
     ¬ returns (index_applicable self (len (segments self) - 1) rule) true ∧
     (is_Some (conditions rule) → segments self ≠ [] →
      returns (index_applicable self (len (segments self) - 1) rule) false)) ∧
  (∀ i, 0 ≤ i < len (segments self) →
        in_bounds self (accesses (index_applicable self i rule)) ∧
        ¬ raises (index_applicable self i rule) IndexError) ∧
  in_bounds self (accesses (applicable self rule)) ∧
  in_bounds self (accesses (apply_rule self rule)).
Proof.
  assert (segments self ≠ [] → 0 < len (segments self)) as Hne.
  { unfold len. destruct (segments self); [done|simpl; lia]. }
  repeat split.
  - by apply index_applicable_before_not_first.
  - intros Hc Hw%Hne. apply index_applicable_false; [done|lia|].
    by apply index_applicable_before_not_first.
  - by apply index_applicable_after_not_last.
  - intros Hc Hw%Hne. apply index_applicable_false; [done|lia|].
    by apply index_applicable_after_not_last.
  - by apply index_applicable_in_bounds.
  - by apply index_applicable_no_IndexError.
  - apply applicable_in_bounds.
  - apply apply_rule_in_bounds.
Qed.

(** C8: for a rule with a [conditions] key, [applicable] returns a
    boolean, and it returns [True] exactly when [index_applicable]
    returns [True] at some index of the word; on the empty word
    [applicable] returns [False] for every rule. *)
Theorem applicable_iff self rule :
  (∀ c, conditions rule = Some c →
     (∃ b, returns (applicable self rule) b) ∧
     (returns (applicable self rule) true ↔
        ∃ i, 0 ≤ i < len (segments self) ∧
             returns (index_applicable self i rule) true)) ∧
  (segments self = [] → returns (applicable self rule) false).
Proof.
  split.
  - intros c Hc.
    destruct (any_spec (λ i, index_applicable self i rule)
                (range (len (segments self)))) as (b & Hb & Hiff).
    { intros i Hi%elem_of_range. apply index_applicable_total; [by eexists|done]. }
    fold (applicable self rule) in Hb. split; [eauto|].
    setoid_rewrite <-elem_of_range. rewrite <-Hiff. split.
    + intros Ht. by eapply returns_inj.
    + by intros <-.
  - intros Hnil. unfold applicable. by rewrite Hnil.
Qed.

(** C9: on a non-empty word, [index_applicable] at a valid subscript and
    [applicable] raise [KeyError] for the key [conditions] when the rule
    lacks it, and [apply_rule] raises [KeyError] for the key [applies]
    when the rule lacks it; no value is returned. *)
Theorem malformed_rule_raises self rule :
  (conditions rule = None →
     (∀ i, - len (segments self) ≤ i < len (segments self) →
           raises (index_applicable self i rule) (KeyError "conditions")) ∧
     (segments self ≠ [] →
      raises (applicable self rule) (KeyError "conditions"))) ∧
  (applies rule = None →
     raises (apply_rule self rule) (KeyError "applies") ∧
     ∀ result, ¬ returns (apply_rule self rule) result).
Proof.
  split.
  - intros Hc. split; [intros i Hi; by apply index_applicable_no_conditions|].
    intros Hne. unfold applicable.
    destruct (segments self) as [|s l] eqn:Hsegs; [done|].
    unfold range, len. rewrite Nat2Z.id. simpl.
    apply raises_bind_l. apply index_applicable_no_conditions; [done|].
    rewrite Hsegs. unfold len. simpl. lia.
  - intros Ha. unfold apply_rule, raises, returns. by rewrite Ha.
Qed.

(** C10: for a rule with [conditions] and [applies] whose
    [applies.positive] does not contain "deletion", [apply_rule] returns a
    word of the same length as the original, and the segment at each
    index is the combined segment if the index matches and the original
    segment otherwise. *)
Theorem merge_preserves_length self rule c a :
  conditions rule = Some c →
  applies rule = Some a →
  "deletion" ∉ get a "positive" →
  ∃ result, returns (apply_rule self rule) result ∧
            len (segments result) = len (segments self) ∧
            ∀ i, 0 ≤ i < len (segments self) →
                 segments result !! Z.to_nat i = merged_at self rule a i.
Proof.
  intros Hc Ha Hd. exists (rewritten self rule a).
  split; [by eapply apply_rule_walk|]. split.
  - unfold rewritten, len. simpl.
    rewrite length_rewrite_at_merge, length_range; [|done|].
    + unfold len. lia.
    + by intros i Hi%elem_of_range.
  - intros i Hi. unfold rewritten. simpl.
    rewrite (list_fmap_ext _ (λ j, option_list (merged_at self rule a j)))
      by (intros k j _; by apply rewrite_at_merge).
    rewrite concat_option_list. apply lookup_omap_range; [|done].
    intros j Hj. unfold merged_at.
    destruct (segment_at_in_range self j Hj) as (s & -> & _). by eexists.
Qed.

End properties.

(** ** Further properties: bounds, missing keys, empty words *)

Lemma getitem_out_of_range {A} (l : list A) i :
  ¬ (- len l ≤ i < len l) → raises (getitem l i) IndexError.
Proof.
  intros Hi. unfold raises, getitem, outcome. simpl.
  destruct (Z.ltb_spec i 0).
  - destruct (Z.leb_spec 0 (i + len l)); simpl; [|done].
    destruct (Z.ltb_spec (i + len l) (len l)); [lia|done].
  - destruct (Z.leb_spec 0 i); [|lia].
    destruct (Z.ltb_spec i (len l)); [lia|done].
Qed.

Lemma getitem_first_from_end {A} (l : list A) x :
  l !! 0%nat = Some x → getitem l (- len l) = ([- len l], inr x).
Proof.
  intros Hx. assert (0 < len l) by (unfold len; destruct l; [done|simpl; lia]).
  unfold getitem. f_equal.
  destruct (Z.ltb_spec (- len l) 0); [|lia].
  replace (- len l + len l) with 0 by lia.
  destruct (Z.ltb_spec 0 (len l)); [|lia].
  change (Z.to_nat 0) with 0%nat. by rewrite Hx.
Qed.

Lemma getitem_last_from_end {A} (l : list A) x :
  l !! (length l - 1)%nat = Some x → getitem l (-1) = ([-1], inr x).
Proof.
  intros Hx. assert (0 < len l) by (unfold len; destruct l; [done|simpl; lia]).
  unfold getitem. f_equal. simpl.
  destruct (Z.leb_spec 0 (-1 + len l)); [|lia].
  destruct (Z.ltb_spec (-1 + len l) (len l)); [|lia]. simpl.
  replace (Z.to_nat (-1 + len l)) with (length l - 1)%nat by (unfold len; lia).
  by rewrite Hx.
Qed.

Lemma any_true_inv {A} (f : A → Run bool) (l : list A) :
  returns (any f l) true → ∃ x, x ∈ l ∧ returns (f x) true.
Proof.
  unfold returns. induction l as [|x l IH]; simpl; [done|].
  rewrite outcome_bind. destruct (outcome (f x)) as [|[]] eqn:Hx; [done|..].
  - intros _. exists x. split; [left|done].
  - intros (y & Hy & Hfy)%IH. exists y. split; [by right|done].
Qed.

Lemma any_false_inv {A} (f : A → Run bool) (l : list A) :
  returns (any f l) false → ∀ x, x ∈ l → returns (f x) false.
Proof.
  unfold returns. induction l as [|x l IH]; simpl.
  - intros _ y Hy. by apply elem_of_nil in Hy.
  - rewrite outcome_bind. destruct (outcome (f x)) as [|[]] eqn:Hx; [done..|].
    intros Hl y [->|Hy]%elem_of_cons; [done|by apply IH].
Qed.

Section bounds_and_keys.
Context {Segment Conditions : Type} `{!SegmentOps Segment Conditions}.

Implicit Types (self : Word Segment) (rule : Rule Conditions).
Implicit Types (i : Z) (c : Conditions) (a : gmap string (list string)).

(** X1: at a subscript that Python rejects, [index_applicable] raises
    [IndexError] whatever the rule is, also a rule without [conditions]:
    the segment is fetched before the rule is read. *)
Theorem index_out_of_range self rule i :
  ¬ (- len (segments self) ≤ i < len (segments self)) →
  raises (index_applicable self i rule) IndexError.
Proof.
  intros Hi. unfold index_applicable.
  by apply raises_bind_l, getitem_out_of_range.
Qed.

(** X2: negative subscripts are not normalised.  At index [- len], which
    denotes the first segment, a rule with [before] (and without [first]
    and [last]) whose conditions the first segment meets makes
    [index_applicable] look one segment further left and raise
    [IndexError]. *)
Theorem negative_index_before self rule c bc s :
  segments self !! 0%nat = Some s →
  conditions rule = Some c →
  meets_conditions s c = true →
  first rule = None →
  last rule = None →
  before rule = Some bc →
  raises (index_applicable self (- len (segments self)) rule) IndexError.
Proof.
  intros Hs Hc Hm Hf Hl Hb.
  assert (0 < len (segments self)) as Hlen.
  { unfold len. destruct (segments self); [done|simpl; lia]. }
  unfold raises, index_applicable.
  rewrite (getitem_first_from_end _ _ Hs), Hc, Hf, Hl, Hb, !outcome_bind.
  simpl. rewrite Hm. simpl.
  destruct (Z.eqb_spec (- len (segments self)) 0); [lia|].
  rewrite !outcome_bind.
  rewrite (getitem_out_of_range (segments self) (- len (segments self) - 1));
    [done|lia].
Qed.

(** X3: at index [-1], which denotes the last segment, a rule with
    [after] (and without [first], [last] and [before]) whose conditions
    the last segment meets is answered from the first segment of the
    word: the subscript [-1 + 1] wraps around to index 0. *)
Theorem negative_index_after self rule c ac s_first s_last :
  segments self !! 0%nat = Some s_first →
  segments self !! (length (segments self) - 1)%nat = Some s_last →
  conditions rule = Some c →
  meets_conditions s_last c = true →
  first rule = None →
  last rule = None →
  before rule = None →
  after rule = Some ac →
  returns (index_applicable self (-1) rule) (meets_conditions s_first ac).
Proof.
  intros Hs0 Hs1 Hc Hm Hf Hl Hb Ha.
  assert (0 < len (segments self)) as Hlen.
  { unfold len. destruct (segments self); [done|simpl; lia]. }
  unfold returns, index_applicable.
  rewrite (getitem_last_from_end _ _ Hs1), Hc, Hf, Hl, Hb, Ha, !outcome_bind.
  destruct (Z.eqb_spec (-1) (len (segments self) - 1)) as [?|_]; [lia|].
  destruct (getitem_in_range (segments self) 0) as (x & Hx & Hg); [lia|].
  assert (x = s_first) as -> by (change (Z.to_nat 0) with 0%nat in Hx; congruence).
  change (-1 + 1) with 0. rewrite Hg.
  simpl. rewrite Hm. simpl. rewrite ?outcome_bind. simpl.
  by destruct (meets_conditions s_first ac).
Qed.

(** X4: with [applies] present, [apply_rule] returns the empty word on
    the empty word whatever else the rule holds, and on a non-empty word
    it raises [KeyError] for [conditions] when the rule lacks that key. *)
Theorem apply_rule_without_conditions self rule a :
  applies rule = Some a →
  (segments self = [] → returns (apply_rule self rule) (Build_Word [])) ∧
  (conditions rule = None → segments self ≠ [] →
   raises (apply_rule self rule) (KeyError "conditions")).
Proof.
  intros Ha. split.
  - intros Hnil. unfold apply_rule. by rewrite Ha, Hnil.
  - intros Hc Hne. by eapply apply_rule_no_conditions.
Qed.

End bounds_and_keys.

(** ** Further properties: what [apply_rule] keeps *)

Section keeping.
Context {Segment Conditions : Type} `{!SegmentOps Segment Conditions}.

Implicit Types (self : Word Segment) (rule : Rule Conditions).
Implicit Types (i : Z) (c : Conditions) (a : gmap string (list string)).

(** Whatever [apply_rule] returns is the result of the walk. *)
Lemma apply_rule_returns_rewritten self rule result :
  returns (apply_rule self rule) result →
  ∃ a, applies rule = Some a ∧ result = rewritten self rule a.
Proof.
  intros Hr. destruct (applies rule) as [a|] eqn:Ha.
  - exists a. split; [done|].
    destruct (conditions rule) as [c|] eqn:Hc.
    + eapply returns_inj; [done|]. apply apply_rule_rewritten; [done|].
      intros i Hi. apply index_applicable_total; [by eexists|done].
    + destruct (segments self) as [|s l] eqn:Hsegs.
      * eapply returns_inj; [done|]. apply apply_rule_rewritten; [done|].
        intros i Hi. rewrite Hsegs in Hi. unfold len in Hi. simpl in Hi. lia.
      * exfalso. eapply returns_not_raises; [done|].
        apply (apply_rule_no_conditions self rule a); [done..|].
        by rewrite Hsegs.
  - unfold returns, apply_rule in Hr. by rewrite Ha in Hr.
Qed.

Lemma length_rewrite_at_le self rule a l :
  (length (concat (rewrite_at self rule a <$> l)) ≤ length l)%nat.
Proof.
  induction l as [|i l IH]; csimpl; [done|]. rewrite length_app.
  assert (length (rewrite_at self rule a i) ≤ 1)%nat; [|lia].
  unfold rewrite_at.
  destruct (segment_at self i); [|simpl; lia].
  destruct (holds _); [|simpl; lia]. destruct (contains _ _); simpl; lia.
Qed.

Lemma apply_rule_nowhere_applicable self rule a :
  applies rule = Some a →
  (∀ i, 0 ≤ i < len (segments self) →
        returns (index_applicable self i rule) false) →
  returns (apply_rule self rule) self.
Proof.
  intros Ha Hno.
  replace self with (rewritten self rule a) at 2.
  { apply apply_rule_rewritten; eauto. }
  destruct self as [segs]. unfold rewritten. f_equal.
  etrans; [|apply (omap_segment_at (Build_Word segs))].
  rewrite <-concat_option_list. f_equal. apply list_fmap_ext.
  intros k i Hk. apply rewrite_at_no_match, Hno.
  apply elem_of_range, list_elem_of_lookup. eauto.
Qed.

Lemma omap_sublist {A B} (f g : A → option B) (l : list A) :
  (∀ x, f x = None ∨ f x = g x) → omap f l `sublist_of` omap g l.
Proof.
  intros Hfg. induction l as [|x l IH]; csimpl; [done|].
  destruct (Hfg x) as [-> | ->].
  - destruct (g x); [by apply sublist_cons|done].
  - destruct (g x); [by apply sublist_skip|done].
Qed.

Lemma filter_nonempty_iff {A} (P : A → Prop) `{!∀ x, Decision (P x)} (l : list A) :
  (0 < length (filter P l))%nat ↔ ∃ x, x ∈ l ∧ P x.
Proof.
  split.
  - destruct (filter P l) as [|x k] eqn:Hf; simpl; [lia|]. intros _.
    assert (x ∈ filter P l) as [??]%list_elem_of_filter by (rewrite Hf; left).
    eauto.
  - intros (x & Hx & HP).
    assert (x ∈ filter P l) as Hin by (by apply list_elem_of_filter).
    destruct (filter P l); [by apply elem_of_nil in Hin|simpl; lia].
Qed.

(** X5: [apply_rule] never lengthens a word: whatever word it returns
    has at most as many segments as the original. *)
Theorem apply_rule_never_longer self rule result :
  returns (apply_rule self rule) result →
  len (segments result) ≤ len (segments self).
Proof.
  intros (a & _ & ->)%apply_rule_returns_rewritten.
  pose proof (length_rewrite_at_le self rule a (range (len (segments self)))).
  rewrite length_range in *. unfold rewritten, len in *. simpl. lia.
Qed.

(** X6: when [applicable] returns [False] and the rule has its
    [applies] entry, [apply_rule] returns a word with the same segments,
    equal to the original. *)
Theorem not_applicable_identity self rule a :
  applies rule = Some a →
  returns (applicable self rule) false →
  ∃ result, returns (apply_rule self rule) result ∧
            segments result = segments self ∧
            Word_eq result self = true.
Proof.
  intros Ha Hno. exists self.
  split; [|split; [done|by apply bool_decide_eq_true]].
  apply (apply_rule_nowhere_applicable self rule a Ha).
  intros i Hi. by apply (any_false_inv _ _ Hno), elem_of_range.
Qed.

(** X7: for a rule with [conditions] whose [applies.positive] contains
    "deletion", the word returned by [apply_rule] is strictly shorter
    than the original exactly when [applicable] returns [True]. *)
Theorem deletion_shortens_iff_applicable self rule c a :
  conditions rule = Some c →
  applies rule = Some a →
  "deletion" ∈ get a "positive" →
  ∃ result, returns (apply_rule self rule) result ∧
            (len (segments result) < len (segments self) ↔
             returns (applicable self rule) true).
Proof.
  intros Hc Ha Hd.
  assert (∀ i, 0 ≤ i < len (segments self) →
               ∃ b, returns (index_applicable self i rule) b) as Htotal.
  { intros i Hi. apply index_applicable_total; [by eexists|done]. }
  exists (rewritten self rule a). split; [by apply apply_rule_rewritten|].
  pose proof (length_rewrite_at_deletion self rule a
                (range (len (segments self))) Hd
                (λ i Hi, proj1 (elem_of_range _ i) Hi)) as Hlen.
  rewrite length_range in Hlen.
  destruct (any_spec (λ i, index_applicable self i rule)
              (range (len (segments self)))) as (b & Hb & Hiff).
  { intros i Hi%elem_of_range. by apply Htotal. }
  fold (applicable self rule) in Hb.
  pose proof (filter_nonempty_iff
                (λ i, returns (index_applicable self i rule) true)
                (range (len (segments self)))) as Hne.
  rewrite <-Hiff in Hne.
  assert (returns (applicable self rule) true ↔ b = true) as ->.
  { split; [intros Ht; by eapply returns_inj|by intros <-]. }
  rewrite <-Hne. unfold rewritten, len in *. simpl. lia.
Qed.

(** X8: when [applies.positive] contains "deletion", the segments of
    the word that [apply_rule] returns are a sublist of the original
    segments: none is changed, added or moved. *)
Theorem deletion_sublist self rule a result :
  applies rule = Some a →
  "deletion" ∈ get a "positive" →
  returns (apply_rule self rule) result →
  segments result `sublist_of` segments self.
Proof.
  intros Ha Hd (a' & Ha' & ->)%apply_rule_returns_rewritten.
  assert (a' = a) as -> by congruence.
  unfold rewritten. simpl.
  rewrite (list_fmap_ext _ (λ i, option_list (kept_at self rule i)))
    by (intros k i _; by apply rewrite_at_deletion).
  rewrite concat_option_list.
  trans (omap (segment_at self) (range (len (segments self))));
    [|by rewrite (omap_segment_at self)].
  apply omap_sublist. intros i. unfold kept_at. destruct (holds _); eauto.
Qed.

(** X9: position keys that exclude each other.  A rule with [first] and
    [before], or with [last] and [after], matches at no index of any
    word, and [applicable] never returns [True] for it; a rule with
    [first] and [last] can only match index 0 of a word of one segment. *)
Theorem conflicting_position_keys self rule :
  (is_Some (first rule) → is_Some (before rule) →
     (∀ i, ¬ returns (index_applicable self i rule) true) ∧
     ¬ returns (applicable self rule) true) ∧
  (is_Some (last rule) → is_Some (after rule) →
     (∀ i, ¬ returns (index_applicable self i rule) true) ∧
     ¬ returns (applicable self rule) true) ∧
  (is_Some (first rule) → is_Some (last rule) →
     ∀ i, returns (index_applicable self i rule) true →
          i = 0 ∧ len (segments self) = 1).
Proof.
  assert (∀ P : Prop,
            (∀ i, ¬ returns (index_applicable self i rule) true) →
            (∀ i, ¬ returns (index_applicable self i rule) true) ∧
            ¬ returns (applicable self rule) true) as Hnever.
  { intros _ Hno. split; [done|].
    intros (i & _ & Hi)%any_true_inv. by apply (Hno i). }
  split; [|split].
  - intros Hf Hb. apply (Hnever True). intros i.
    destruct (decide (i = 0)) as [->|Hi].
    + by apply index_applicable_before_not_first.
    + by apply index_applicable_first_only.
  - intros Hl Ha. apply (Hnever True). intros i.
    destruct (decide (i = len (segments self) - 1)) as [->|Hi].
    + by apply index_applicable_after_not_last.
    + by apply index_applicable_last_only.
  - intros Hf Hl i Hi.
    destruct (decide (i = 0)) as [->|Hi0];
      [|by destruct (index_applicable_first_only self rule i)].
    split; [done|].
    destruct (decide (0 = len (segments self) - 1)) as [?|Hn]; [lia|].
    by destruct (index_applicable_last_only self rule 0).
Qed.

End keeping.

(** ** Further properties: rules without context, equality of words *)

Section context_free_rules.
Context {Segment Conditions : Type} `{!SegmentOps Segment Conditions}.

Implicit Types (self : Word Segment) (rule : Rule Conditions).
Implicit Types (i : Z) (c : Conditions) (a : gmap string (list string)).

Lemma index_applicable_context_free self rule c i s :
  context_free rule → conditions rule = Some c →
  0 ≤ i < len (segments self) → segment_at self i = Some s →
  returns (index_applicable self i rule) (meets_conditions s c).
Proof.
  intros (Hf & Hl & Hb & Ha) Hc Hi Hs.
  destruct (index_applicable_spec self rule c i Hc Hi) as (b & Hb' & Hiff).
  rewrite (meets_at_Some self i c s Hs), Hf, Hl, Hb, Ha in Hiff.
  replace (meets_conditions s c) with b; [done|].
  destruct b, (meets_conditions s c); try done.
  - by destruct (proj1 Hiff eq_refl) as [? _].
  - apply Hiff. repeat split; try done; by intros [? ?].
Qed.

Lemma concat_from_option {A B C} (g : B → list C) (h : A → option B) (l : list A) :
  concat ((λ x, from_option g [] (h x)) <$> l) = omap h l ≫= g.
Proof.
  induction l as [|x l IH]; csimpl; [done|]. rewrite IH. by destruct (h x).
Qed.

Lemma rewritten_context_free self rule c a :
  context_free rule → conditions rule = Some c →
  rewritten self rule a = Build_Word (segments self ≫= rewrite_segment c a).
Proof.
  intros Hcf Hc. unfold rewritten. f_equal.
  rewrite <-(omap_segment_at self) at 2. rewrite <-concat_from_option.
  f_equal. apply list_fmap_ext. intros k i Hk.
  assert (0 ≤ i < len (segments self)) as Hi.
  { apply elem_of_range, list_elem_of_lookup. eauto. }
  destruct (segment_at_in_range self i Hi) as (s & Hs & _).
  unfold rewrite_at, rewrite_segment. rewrite Hs. simpl.
  by rewrite (holds_returns _ _
                (index_applicable_context_free self rule c i s Hcf Hc Hi Hs)).
Qed.

(** X10: a rule with [conditions] and [applies] and without [first],
    [last], [before] and [after] rewrites every segment on its own:
    [apply_rule] returns the segments of the word, in order, each one
    dropped or combined if it meets the conditions and kept otherwise. *)
Theorem context_free_pointwise self rule c a :
  context_free rule →
  conditions rule = Some c →
  applies rule = Some a →
  returns (apply_rule self rule)
          (Build_Word (segments self ≫= rewrite_segment c a)).
Proof.
  intros Hcf Hc Ha. rewrite <-(rewritten_context_free self rule c a Hcf Hc).
  apply apply_rule_rewritten; [done|].
  intros i Hi. apply index_applicable_total; [by eexists|done].
Qed.

(** X11: for such a rule, applying it to the concatenation of two
    segment sequences gives the concatenation of the two results. *)
Theorem context_free_concat rule c a (l1 l2 : list Segment) :
  context_free rule →
  conditions rule = Some c →
  applies rule = Some a →
  ∃ w1 w2, returns (apply_rule (Build_Word l1) rule) w1 ∧
           returns (apply_rule (Build_Word l2) rule) w2 ∧
           returns (apply_rule (Build_Word (l1 ++ l2)) rule)
                   (Build_Word (segments w1 ++ segments w2)).
Proof.
  intros Hcf Hc Ha.
  exists (Build_Word (l1 ≫= rewrite_segment c a)),
         (Build_Word (l2 ≫= rewrite_segment c a)).
  split; [by apply (context_free_pointwise (Build_Word l1))|].
  split; [by apply (context_free_pointwise (Build_Word l2))|].
  simpl. rewrite <-bind_app.
  by apply (context_free_pointwise (Build_Word (l1 ++ l2))).
Qed.

(** X12: for such a rule whose [applies.positive] contains "deletion",
    one application removes every segment that can match: on the word
    returned, [applicable] returns [False] and [apply_rule] returns the
    same word again. *)
Theorem context_free_deletion_idempotent self rule c a :
  context_free rule →
  conditions rule = Some c →
  applies rule = Some a →
  "deletion" ∈ get a "positive" →
  ∃ result, returns (apply_rule self rule) result ∧
            returns (applicable result rule) false ∧
            returns (apply_rule result rule) result.
Proof.
  intros Hcf Hc Ha Hd%contains_true.
  set (result := Build_Word (segments self ≫= rewrite_segment c a)).
  assert (∀ i, 0 ≤ i < len (segments result) →
               returns (index_applicable result i rule) false) as Hno.
  { intros i Hi. destruct (segment_at_in_range result i Hi) as (s & Hs & _).
    replace false with (meets_conditions s c);
      [by apply index_applicable_context_free|].
    assert (s ∈ segments result) as Hin.
    { unfold segment_at in Hs. rewrite decide_True in Hs by done.
      by eapply list_elem_of_lookup_2. }
    apply list_elem_of_bind in Hin as (s0 & Hin & _).
    unfold rewrite_segment in Hin. rewrite Hd in Hin.
    destruct (meets_conditions s0 c) eqn:Hm.
    - by apply elem_of_nil in Hin.
    - by apply list_elem_of_singleton in Hin as ->. }
  exists result. split; [by apply context_free_pointwise|]. split.
  - destruct (any_spec (λ i, index_applicable result i rule)
                (range (len (segments result)))) as ([] & Hb & Hiff); [| |done].
    + intros i Hi%elem_of_range. eauto.
    + destruct (proj1 Hiff eq_refl) as (i & Hi%elem_of_range & Ht).
      by pose proof (returns_inj _ _ _ Ht (Hno i Hi)).
  - by apply (apply_rule_nowhere_applicable result rule a).
Qed.

(** X13: [Word.__eq__] returns [True] exactly when the two words have
    the same number of segments and segments at the same position have
    the same positive, negative and zero sets. *)
Theorem Word_eq_iff self (other : Word Segment) :
  Word_eq self other = true ↔
  Forall2 same_features (segments self) (segments other).
Proof.
  unfold Word_eq, Word_key. rewrite bool_decide_eq_true.
  generalize (segments other). induction (segments self) as [|s l IH];
    intros [|s' l']; csimpl.
  - split; [constructor|done].
  - split; [intros [=]|inversion 1].
  - split; [intros [=]|inversion 1].
  - split.
    + intros [= Hp Hn Hz Hl]. constructor; [done|by apply IH].
    + intros [(Hp & Hn & Hz) Hl%IH]%Forall2_cons. by rewrite Hp, Hn, Hz, Hl.
Qed.

End context_free_rules.

(** ** The properties on the two-segment word *)

Section scenarios.
Import SpecSegment.

Local Ltac in_word := unfold len in *; simpl in *; lia.

(** The devoicing rule at index 0 of the two-segment word. *)
Lemma index_applicable_iff_witness :
  (conditions devoicing = Some is_voiced ∧
   0 ≤ 0 < len (segments two_segments)) ∧
  (∃ b, returns (index_applicable two_segments 0 devoicing) b) ∧
  (returns (index_applicable two_segments 0 devoicing) true ↔
     meets_at two_segments 0 is_voiced ∧
     (is_Some (first devoicing) → 0 = 0) ∧
     (is_Some (last devoicing) → 0 = len (segments two_segments) - 1) ∧
     (∀ bc, before devoicing = Some bc →
            0 < 0 ∧ meets_at two_segments (0 - 1) bc) ∧
     (∀ ac, after devoicing = Some ac →
            0 < len (segments two_segments) - 1 ∧
            meets_at two_segments (0 + 1) ac)).
Proof.
  assert (conditions devoicing = Some is_voiced) as Hc by reflexivity.
  assert (0 ≤ 0 < len (segments two_segments)) as Hi by in_word.
  exact (conj (conj Hc Hi)
              (index_applicable_iff two_segments devoicing is_voiced 0 Hc Hi)).
Defined.

(** The devoicing rule applied to the two-segment word. *)
Lemma apply_rule_walk_witness :
  (conditions devoicing = Some is_voiced ∧ applies devoicing = Some devoice) ∧
  returns (apply_rule two_segments devoicing)
          (rewritten two_segments devoicing devoice).
Proof.
  assert (conditions devoicing = Some is_voiced) as Hc by reflexivity.
  assert (applies devoicing = Some devoice) as Ha by reflexivity.
  exact (conj (conj Hc Ha)
              (apply_rule_walk two_segments devoicing is_voiced devoice Hc Ha)).
Defined.

(** Deleting the voiceless segment, with and without further labels. *)
Lemma deletion_discards_features_witness :
  (applies delete_voiceless = Some delete ∧
   "deletion" ∈ get delete "positive" ∧
   is_Some (conditions delete_voiceless) ∧
   "deletion" ∈ get delete_and_more "positive") ∧
  returns (apply_rule two_segments delete_voiceless)
          (Build_Word (unmatched two_segments delete_voiceless)) ∧
  outcome (apply_rule two_segments (with_applies delete_voiceless delete_and_more)) =
  outcome (apply_rule two_segments delete_voiceless).
Proof.
  assert (applies delete_voiceless = Some delete) as Ha by reflexivity.
  assert ("deletion" ∈ get delete "positive") as Hd by compute_done.
  assert (is_Some (conditions delete_voiceless)) as Hc by (by eexists).
  assert ("deletion" ∈ get delete_and_more "positive") as Hd' by compute_done.
  split; [done|].
  destruct (deletion_discards_features two_segments delete_voiceless delete Ha Hd)
    as (_ & Hr & Hany).
  exact (conj (Hr Hc) (Hany delete_and_more Hd')).
Defined.

(** A rule restricted to the last index whose conditions only hold at index 0. *)
Lemma no_match_identity_witness :
  (applies voiced_last = Some devoice ∧
   ∀ i, 0 ≤ i < len (segments two_segments) →
        returns (index_applicable two_segments i voiced_last) false) ∧
  ∃ result, returns (apply_rule two_segments voiced_last) result ∧
            segments result = segments two_segments ∧
            Word_eq result two_segments = true.
Proof.
  assert (applies voiced_last = Some devoice) as Ha by reflexivity.
  assert (∀ i, 0 ≤ i < len (segments two_segments) →
               returns (index_applicable two_segments i voiced_last) false) as Hno.
  { intros i Hi. assert (i = 0 ∨ i = 1) as [-> | ->] by in_word; reflexivity. }
  exact (conj (conj Ha Hno)
              (no_match_identity two_segments voiced_last devoice Ha Hno)).
Defined.

(** Deleting the voiceless segment: one index of two matches. *)
Lemma deletion_shrinks_witness :
  (conditions delete_voiceless = Some is_voiceless ∧
   applies delete_voiceless = Some delete ∧
   "deletion" ∈ get delete "positive" ∧
   length (matching_indices two_segments delete_voiceless) = 1%nat) ∧
  ∃ result, returns (apply_rule two_segments delete_voiceless) result ∧
            len (segments result) = len (segments two_segments) - Z.of_nat 1 ∧
            ((∀ i, 0 ≤ i < len (segments two_segments) →
                   returns (index_applicable two_segments i delete_voiceless) true) →
             segments result = []).
Proof.
  assert (conditions delete_voiceless = Some is_voiceless) as Hc by reflexivity.
  assert (applies delete_voiceless = Some delete) as Ha by reflexivity.
  assert ("deletion" ∈ get delete "positive") as Hd by compute_done.
  assert (length (matching_indices two_segments delete_voiceless) = 1%nat) as Hk
    by (vm_compute; reflexivity).
  split; [done|].
  exact (deletion_shrinks two_segments delete_voiceless is_voiceless delete 1
           Hc Ha Hd Hk).
Defined.

(** [first] at index 1 and [last] at index 0 of the two-segment word. *)
Lemma first_last_exclusive_witness :
  (is_Some (first voiceless_first) ∧ 1 ≠ 0 ∧
   is_Some (conditions voiceless_first) ∧
   0 ≤ 1 < len (segments two_segments)) ∧
  (¬ returns (index_applicable two_segments 1 voiceless_first) true ∧
   returns (index_applicable two_segments 1 voiceless_first) false) ∧
  (is_Some (last voiced_last) ∧ 0 ≠ len (segments two_segments) - 1 ∧
   is_Some (conditions voiced_last) ∧
   0 ≤ 0 < len (segments two_segments)) ∧
  (¬ returns (index_applicable two_segments 0 voiced_last) true ∧
   returns (index_applicable two_segments 0 voiced_last) false).
Proof.
  assert (is_Some (first voiceless_first)) as Hf by (by eexists).
  assert (is_Some (conditions voiceless_first)) as Hcf by (by eexists).
  assert (is_Some (last voiced_last)) as Hl by (by eexists).
  assert (is_Some (conditions voiced_last)) as Hcl by (by eexists).
  assert (1 ≠ 0) as H1 by lia.
  assert (0 ≠ len (segments two_segments) - 1) as H0 by in_word.
  assert (0 ≤ 1 < len (segments two_segments)) as Hi1 by in_word.
  assert (0 ≤ 0 < len (segments two_segments)) as Hi0 by in_word.
  destruct (first_last_exclusive two_segments voiceless_first 1) as [Hfirst _].
  destruct (first_last_exclusive two_segments voiced_last 0) as [_ Hlast].
  destruct (Hfirst Hf H1) as [Hnf Hff]. destruct (Hlast Hl H0) as [Hnl Hfl].
  exact (conj (conj Hf (conj H1 (conj Hcf Hi1)))
          (conj (conj Hnf (Hff Hcf Hi1))
             (conj (conj Hl (conj H0 (conj Hcl Hi0)))
                (conj Hnl (Hfl Hcl Hi0))))).
Defined.

(** [before] at index 0 and [after] at the last index of the two-segment word. *)
Lemma context_boundary_witness :
  (is_Some (before voiced_after_voiced) ∧
   is_Some (conditions voiced_after_voiced) ∧
   segments two_segments ≠ []) ∧
  (¬ returns (index_applicable two_segments 0 voiced_after_voiced) true ∧
   returns (index_applicable two_segments 0 voiced_after_voiced) false) ∧
  (is_Some (after voiceless_before_voiceless) ∧
   is_Some (conditions voiceless_before_voiceless)) ∧
  (¬ returns (index_applicable two_segments (len (segments two_segments) - 1)
                               voiceless_before_voiceless) true ∧
   returns (index_applicable two_segments (len (segments two_segments) - 1)
                             voiceless_before_voiceless) false) ∧
  0 ≤ 1 < len (segments two_segments) ∧
  (in_bounds two_segments
     (accesses (index_applicable two_segments 1 voiced_after_voiced)) ∧
   ¬ raises (index_applicable two_segments 1 voiced_after_voiced) IndexError) ∧
  in_bounds two_segments (accesses (applicable two_segments voiced_after_voiced)) ∧
  in_bounds two_segments (accesses (apply_rule two_segments voiced_after_voiced)).
Proof.
  assert (is_Some (before voiced_after_voiced)) as Hb by (by eexists).
  assert (is_Some (conditions voiced_after_voiced)) as Hcb by (by eexists).
  assert (is_Some (after voiceless_before_voiceless)) as Ha by (by eexists).
  assert (is_Some (conditions voiceless_before_voiceless)) as Hca by (by eexists).
  assert (segments two_segments ≠ []) as Hne by done.
  assert (0 ≤ 1 < len (segments two_segments)) as Hi by in_word.
  destruct (context_boundary two_segments voiced_after_voiced)
    as (Hbefore & _ & Hidx & Happ & Hrule).
  destruct (context_boundary two_segments voiceless_before_voiceless)
    as (_ & Hafter & _).
  destruct (Hbefore Hb) as [Hnb Hfb]. destruct (Hafter Ha) as [Hna Hfa].
  exact (conj (conj Hb (conj Hcb Hne))
          (conj (conj Hnb (Hfb Hcb Hne))
             (conj (conj Ha Hca)
                (conj (conj Hna (Hfa Hca Hne))
                   (conj Hi (conj (Hidx 1 Hi) (conj Happ Hrule))))))).
Defined.

(** The devoicing rule on the two-segment word and on the empty word. *)
Lemma applicable_iff_witness :
  conditions devoicing = Some is_voiced ∧
  ((∃ b, returns (applicable two_segments devoicing) b) ∧
   (returns (applicable two_segments devoicing) true ↔
      ∃ i, 0 ≤ i < len (segments two_segments) ∧
           returns (index_applicable two_segments i devoicing) true)) ∧
  segments (Build_Word (Segment:=Segment) []) = [] ∧
  returns (applicable (Build_Word []) devoicing) false.
Proof.
  assert (conditions devoicing = Some is_voiced) as Hc by reflexivity.
  assert (segments (Build_Word (Segment:=Segment) []) = []) as Hnil by reflexivity.
  destruct (applicable_iff two_segments devoicing) as [Hiff _].
  destruct (applicable_iff (Build_Word []) devoicing) as [_ Hempty].
  exact (conj Hc (conj (Hiff is_voiced Hc) (conj Hnil (Hempty Hnil)))).
Defined.

(** A rule without [conditions] and a rule without [applies]. *)
Lemma malformed_rule_raises_witness :
  (conditions no_conditions = None ∧
   - len (segments two_segments) ≤ 1 < len (segments two_segments) ∧
   segments two_segments ≠ []) ∧
  (raises (index_applicable two_segments 1 no_conditions) (KeyError "conditions") ∧
   raises (applicable two_segments no_conditions) (KeyError "conditions")) ∧
  applies no_applies = None ∧
  raises (apply_rule two_segments no_applies) (KeyError "applies") ∧
  ∀ result, ¬ returns (apply_rule two_segments no_applies) result.
Proof.
  assert (conditions no_conditions = None) as Hc by reflexivity.
  assert (applies no_applies = None) as Ha by reflexivity.
  assert (- len (segments two_segments) ≤ 1 < len (segments two_segments))
    as Hi by in_word.
  assert (segments two_segments ≠ []) as Hne by done.
  destruct (malformed_rule_raises two_segments no_conditions) as [Hconds _].
  destruct (malformed_rule_raises two_segments no_applies) as [_ Happlies].
  destruct (Hconds Hc) as [Hidx Happ].
  exact (conj (conj Hc (conj Hi Hne))
          (conj (conj (Hidx 1 Hi) (Happ Hne)) (conj Ha (Happlies Ha)))).
Defined.

(** Devoicing keeps the two segments of the word. *)
Lemma merge_preserves_length_witness :
  (conditions devoicing = Some is_voiced ∧
   applies devoicing = Some devoice ∧
   "deletion" ∉ get devoice "positive") ∧
  ∃ result, returns (apply_rule two_segments devoicing) result ∧
            len (segments result) = len (segments two_segments) ∧
            ∀ i, 0 ≤ i < len (segments two_segments) →
                 segments result !! Z.to_nat i =
                 merged_at two_segments devoicing devoice i.
Proof.
  assert (conditions devoicing = Some is_voiced) as Hc by reflexivity.
  assert (applies devoicing = Some devoice) as Ha by reflexivity.
  assert ("deletion" ∉ get devoice "positive") as Hd by compute_done.
  exact (conj (conj Hc (conj Ha Hd))
           (merge_preserves_length two_segments devoicing is_voiced devoice
              Hc Ha Hd)).
Defined.

(** The concrete scenarios: devoicing the first of two segments, deleting
    the second, and a rule restricted to the last index that matches
    nowhere. *)
Example devoicing_applies :
  returns (applicable two_segments devoicing) true ∧
  returns (apply_rule two_segments devoicing)
          (Build_Word [voiceless; voiceless]).
Proof. split; vm_compute; reflexivity. Qed.

Example deletion_of_second :
  returns (apply_rule two_segments delete_voiceless) (Build_Word [voiced]).
Proof. vm_compute. reflexivity. Qed.

Example last_does_not_match :
  returns (applicable two_segments voiced_last) false ∧
  returns (apply_rule two_segments voiced_last) two_segments.
Proof. split; vm_compute; reflexivity. Qed.

Example negative_subscript :
  returns (getitem [voiced; voiceless] (-1)) voiceless ∧
  raises (getitem [voiced; voiceless] 2) IndexError ∧
  raises (getitem [voiced; voiceless] (-3)) IndexError.
Proof. repeat split. Qed.

End scenarios.

(** ** The further properties on small words *)

Section more_scenarios.
Import SpecSegment MoreScenarios.

Local Ltac in_word := unfold len in *; simpl in *; lia.

(** Index 2 of the two-segment word, with a rule that lacks [conditions]. *)
Lemma index_out_of_range_witness :
  ¬ (- len (segments two_segments) ≤ 2 < len (segments two_segments)) ∧
  raises (index_applicable two_segments 2 no_conditions) IndexError.
Proof.
  assert (¬ (- len (segments two_segments) ≤ 2 < len (segments two_segments)))
    as Hi by in_word.
  exact (conj Hi (index_out_of_range two_segments no_conditions 2 Hi)).
Defined.

(** Index -2 of the two-segment word, with a rule that has [before]. *)
Lemma negative_index_before_witness :
  (segments two_segments !! 0%nat = Some voiced ∧
   conditions voiced_after_voiced = Some is_voiced ∧
   meets_conditions voiced is_voiced = true ∧
   first voiced_after_voiced = None ∧
   last voiced_after_voiced = None ∧
   before voiced_after_voiced = Some is_voiced) ∧
  raises (index_applicable two_segments (- len (segments two_segments))
                           voiced_after_voiced) IndexError.
Proof.
  split; [repeat split|].
  exact (negative_index_before two_segments voiced_after_voiced
           is_voiced is_voiced voiced eq_refl eq_refl eq_refl eq_refl eq_refl
           eq_refl).
Defined.

(** Index -1 of the two-segment word: the voiceless last segment is
    taken to stand before the voiced first one. *)
Lemma negative_index_after_witness :
  (segments two_segments !! 0%nat = Some voiced ∧
   segments two_segments !! (length (segments two_segments) - 1)%nat
     = Some voiceless ∧
   conditions voiceless_before_voiced = Some is_voiceless ∧
   meets_conditions voiceless is_voiceless = true ∧
   first voiceless_before_voiced = None ∧
   last voiceless_before_voiced = None ∧
   before voiceless_before_voiced = None ∧
   after voiceless_before_voiced = Some is_voiced) ∧
  returns (index_applicable two_segments (-1) voiceless_before_voiced)
          (meets_conditions voiced is_voiced).
Proof.
  split; [repeat split|].
  exact (negative_index_after two_segments voiceless_before_voiced
           is_voiceless is_voiced voiced voiceless
           eq_refl eq_refl eq_refl eq_refl eq_refl eq_refl eq_refl eq_refl).
Defined.

(** A rule without [conditions] on the empty and on the two-segment word. *)
Lemma apply_rule_without_conditions_witness :
  (applies no_conditions = Some devoice ∧
   segments empty_word = [] ∧
   conditions no_conditions = None ∧
   segments two_segments ≠ []) ∧
  returns (apply_rule empty_word no_conditions) (Build_Word []) ∧
  raises (apply_rule two_segments no_conditions) (KeyError "conditions").
Proof.
  assert (applies no_conditions = Some devoice) as Ha by reflexivity.
  assert (segments empty_word = []) as Hnil by reflexivity.
  assert (conditions no_conditions = None) as Hc by reflexivity.
  assert (segments two_segments ≠ []) as Hne by done.
  destruct (apply_rule_without_conditions empty_word no_conditions devoice Ha)
    as [Hempty _].
  destruct (apply_rule_without_conditions two_segments no_conditions devoice Ha)
    as [_ Hraise].
  exact (conj (conj Ha (conj Hnil (conj Hc Hne)))
              (conj (Hempty Hnil) (Hraise Hc Hne))).
Defined.

(** Deleting the voiceless segment of the two-segment word. *)
Lemma apply_rule_never_longer_witness :
  returns (apply_rule two_segments delete_voiceless) (Build_Word [voiced]) ∧
  len (segments (Build_Word [voiced])) ≤ len (segments two_segments).
Proof.
  assert (returns (apply_rule two_segments delete_voiceless)
                  (Build_Word [voiced])) as Hr by (vm_compute; reflexivity).
  exact (conj Hr (apply_rule_never_longer two_segments delete_voiceless
                    (Build_Word [voiced]) Hr)).
Defined.

(** A rule restricted to the last index that matches nowhere. *)
Lemma not_applicable_identity_witness :
  (applies voiced_last = Some devoice ∧
   returns (applicable two_segments voiced_last) false) ∧
  ∃ result, returns (apply_rule two_segments voiced_last) result ∧
            segments result = segments two_segments ∧
            Word_eq result two_segments = true.
Proof.
  assert (applies voiced_last = Some devoice) as Ha by reflexivity.
  assert (returns (applicable two_segments voiced_last) false) as Hno
    by (vm_compute; reflexivity).
  exact (conj (conj Ha Hno)
              (not_applicable_identity two_segments voiced_last devoice Ha Hno)).
Defined.

(** Deleting the voiceless segment: applicable, and shorter. *)
Lemma deletion_shortens_iff_applicable_witness :
  (conditions delete_voiceless = Some is_voiceless ∧
   applies delete_voiceless = Some delete ∧
   "deletion" ∈ get delete "positive") ∧
  ∃ result, returns (apply_rule two_segments delete_voiceless) result ∧
            (len (segments result) < len (segments two_segments) ↔
             returns (applicable two_segments delete_voiceless) true).
Proof.
  assert (conditions delete_voiceless = Some is_voiceless) as Hc by reflexivity.
  assert (applies delete_voiceless = Some delete) as Ha by reflexivity.
  assert ("deletion" ∈ get delete "positive") as Hd by compute_done.
  exact (conj (conj Hc (conj Ha Hd))
              (deletion_shortens_iff_applicable two_segments delete_voiceless
                 is_voiceless delete Hc Ha Hd)).
Defined.

(** Deleting the voiceless segment leaves a sublist. *)
Lemma deletion_sublist_witness :
  (applies delete_voiceless = Some delete ∧
   "deletion" ∈ get delete "positive" ∧
   returns (apply_rule two_segments delete_voiceless) (Build_Word [voiced])) ∧
  segments (Build_Word [voiced]) `sublist_of` segments two_segments.
Proof.
  assert (applies delete_voiceless = Some delete) as Ha by reflexivity.
  assert ("deletion" ∈ get delete "positive") as Hd by compute_done.
  assert (returns (apply_rule two_segments delete_voiceless)
                  (Build_Word [voiced])) as Hr by (vm_compute; reflexivity).
  exact (conj (conj Ha (conj Hd Hr))
              (deletion_sublist two_segments delete_voiceless delete
                 (Build_Word [voiced]) Ha Hd Hr)).
Defined.

(** Rules whose position keys exclude each other. *)
Lemma conflicting_position_keys_witness :
  (is_Some (first first_and_before) ∧ is_Some (before first_and_before)) ∧
  ((∀ i, ¬ returns (index_applicable two_segments i first_and_before) true) ∧
   ¬ returns (applicable two_segments first_and_before) true) ∧
  (is_Some (last last_and_after) ∧ is_Some (after last_and_after)) ∧
  ((∀ i, ¬ returns (index_applicable two_segments i last_and_after) true) ∧
   ¬ returns (applicable two_segments last_and_after) true) ∧
  (is_Some (first first_and_last) ∧ is_Some (last first_and_last) ∧
   returns (index_applicable one_segment 0 first_and_last) true) ∧
  (0 = 0 ∧ len (segments one_segment) = 1).
Proof.
  assert (is_Some (first first_and_before)) as Hf1 by (by eexists).
  assert (is_Some (before first_and_before)) as Hb1 by (by eexists).
  assert (is_Some (last last_and_after)) as Hl2 by (by eexists).
  assert (is_Some (after last_and_after)) as Ha2 by (by eexists).
  assert (is_Some (first first_and_last)) as Hf3 by (by eexists).
  assert (is_Some (last first_and_last)) as Hl3 by (by eexists).
  assert (returns (index_applicable one_segment 0 first_and_last) true) as Ht
    by reflexivity.
  destruct (conflicting_position_keys two_segments first_and_before)
    as (H1 & _ & _).
  destruct (conflicting_position_keys two_segments last_and_after)
    as (_ & H2 & _).
  destruct (conflicting_position_keys one_segment first_and_last)
    as (_ & _ & H3).
  exact (conj (conj Hf1 Hb1)
          (conj (H1 Hf1 Hb1)
             (conj (conj Hl2 Ha2)
                (conj (H2 Hl2 Ha2)
                   (conj (conj Hf3 (conj Hl3 Ht)) (H3 Hf3 Hl3 0 Ht)))))).
Defined.

(** Devoicing has no position or context key. *)
Lemma context_free_pointwise_witness :
  (context_free devoicing ∧
   conditions devoicing = Some is_voiced ∧
   applies devoicing = Some devoice) ∧
  returns (apply_rule two_segments devoicing)
          (Build_Word (segments two_segments ≫= rewrite_segment is_voiced devoice)).
Proof.
  assert (context_free devoicing) as Hcf by (by repeat split).
  assert (conditions devoicing = Some is_voiced) as Hc by reflexivity.
  assert (applies devoicing = Some devoice) as Ha by reflexivity.
  exact (conj (conj Hcf (conj Hc Ha))
              (context_free_pointwise two_segments devoicing is_voiced devoice
                 Hcf Hc Ha)).
Defined.

(** Devoicing the two segments one by one and together. *)
Lemma context_free_concat_witness :
  (context_free devoicing ∧
   conditions devoicing = Some is_voiced ∧
   applies devoicing = Some devoice) ∧
  ∃ w1 w2, returns (apply_rule (Build_Word [voiced]) devoicing) w1 ∧
           returns (apply_rule (Build_Word [voiceless]) devoicing) w2 ∧
           returns (apply_rule (Build_Word ([voiced] ++ [voiceless])) devoicing)
                   (Build_Word (segments w1 ++ segments w2)).
Proof.
  assert (context_free devoicing) as Hcf by (by repeat split).
  assert (conditions devoicing = Some is_voiced) as Hc by reflexivity.
  assert (applies devoicing = Some devoice) as Ha by reflexivity.
  exact (conj (conj Hcf (conj Hc Ha))
              (context_free_concat devoicing is_voiced devoice
                 [voiced] [voiceless] Hcf Hc Ha)).
Defined.

(** Deleting the voiceless segment twice. *)
Lemma context_free_deletion_idempotent_witness :
  (context_free delete_voiceless ∧
   conditions delete_voiceless = Some is_voiceless ∧
   applies delete_voiceless = Some delete ∧
   "deletion" ∈ get delete "positive") ∧
  ∃ result, returns (apply_rule two_segments delete_voiceless) result ∧
            returns (applicable result delete_voiceless) false ∧
            returns (apply_rule result delete_voiceless) result.
Proof.
  assert (context_free delete_voiceless) as Hcf by (by repeat split).
  assert (conditions delete_voiceless = Some is_voiceless) as Hc by reflexivity.
  assert (applies delete_voiceless = Some delete) as Ha by reflexivity.
  assert ("deletion" ∈ get delete "positive") as Hd by compute_done.
  exact (conj (conj Hcf (conj Hc (conj Ha Hd)))
              (context_free_deletion_idempotent two_segments delete_voiceless
                 is_voiceless delete Hcf Hc Ha Hd)).
Defined.

End more_scenarios.
